(** * SHA-1 step-by-step implementation (javascript/main.js), shallow embedding.

    JavaScript strings of binary digits are modelled as [list ascii]; a JS
    number produced by [parseInt] is [option Z], [None] being [NaN].  Code
    that can throw (a [RangeError] from [new Array] with a negative size, a
    [TypeError] from calling [split] on [undefined]) returns [option]. *)

From Stdlib Require Import ZArith Ascii String Lia Bool List.
Import ListNotations.
Open Scope char_scope.

(** Option as an error monad: [None] is a thrown exception. *)
Definition obind {A B} (m : option A) (f : A -> option B) : option B :=
  match m with Some x => f x | None => None end.
Notation "'let*' x ':=' m 'in' f" := (obind m (fun x => f))
  (at level 200, x name, m at level 100, f at level 200).

Definition bits := list ascii.

(** ** Module [Utils] *)
Module Utils.

(** [getStringXTime(str, count)] = [new Array(count + 1).join(str)].
    Every call site passes [count >= 0], except step 8 of [sha1], which
    checks the [RangeError] case itself. *)
Definition getStringXTime (str : bits) (count : nat) : bits :=
  concat (repeat str count).

(** The common loop of [xor], [or] and [and]:
    [for (i = 0; i < w1.length || i < w2.length; i++) processed.push(f(bits1[i], bits2[i]))];
    an index past the end of a string reads [undefined], here [None]. *)
Fixpoint zip_bits (f : option ascii -> option ascii -> ascii) (w1 w2 : bits) : bits :=
  match w1 with
  | [] => map (fun c2 => f None (Some c2)) w2
  | c1 :: r1 =>
      match w2 with
      | [] => f (Some c1) None :: zip_bits f r1 []
      | c2 :: r2 => f (Some c1) (Some c2) :: zip_bits f r1 r2
      end
  end.

Definition is1 (b : option ascii) : bool :=
  match b with Some c => Ascii.eqb c "1" | None => false end.

Definition opt_eqb (b1 b2 : option ascii) : bool :=
  match b1, b2 with
  | Some c1, Some c2 => Ascii.eqb c1 c2
  | None, None => true
  | _, _ => false
  end.

(** [bits1[i] !== bits2[i] && (bits1[i] === '1' || bits2[i] === '1')] *)
Definition xor_bit (b1 b2 : option ascii) : ascii :=
  if negb (opt_eqb b1 b2) && (is1 b1 || is1 b2) then "1" else "0".
(** [bits1[i] === '1' || bits2[i] === '1'] *)
Definition or_bit (b1 b2 : option ascii) : ascii :=
  if is1 b1 || is1 b2 then "1" else "0".
(** [bits1[i] === '1' && bits2[i] === '1'] *)
Definition and_bit (b1 b2 : option ascii) : ascii :=
  if is1 b1 && is1 b2 then "1" else "0".

Definition xor (w1 w2 : bits) : bits := zip_bits xor_bit w1 w2.
Definition or (w1 w2 : bits) : bits := zip_bits or_bit w1 w2.
Definition and (w1 w2 : bits) : bits := zip_bits and_bit w1 w2.

(** [not]: ['0'] becomes ['1'], anything else becomes ['0']. *)
Definition not (w1 : bits) : bits :=
  map (fun c => if Ascii.eqb c "0" then "1" else "0") w1.

(** One step of [rotate]: [arr.push(arr.splice(0, 1)[0])]; on the empty
    string the pushed [undefined] joins as the empty string. *)
Definition rotate1 (str : bits) : bits :=
  match str with [] => [] | c :: r => r ++ [c] end.

Fixpoint rotate (str : bits) (count : nat) : bits :=
  match count with 0 => str | S n => rotate (rotate1 str) n end.

(** [parseInt(s, 2)]: the longest prefix of binary digits, [NaN] when it is
    empty.  (Leading whitespace and a sign, which never occur in the strings
    of this program, are not modelled; the values reaching it have at most
    64 digits and are exact in the model.) *)
Definition digit2 (c : ascii) : option Z :=
  if Ascii.eqb c "0" then Some 0%Z else if Ascii.eqb c "1" then Some 1%Z else None.

Fixpoint parse_digits (acc : Z) (s : bits) : Z :=
  match s with
  | [] => acc
  | c :: r => match digit2 c with
              | Some d => parse_digits (2 * acc + d)%Z r
              | None => acc
              end
  end.

Definition parseInt2 (s : bits) : option Z :=
  match s with
  | c :: _ => match digit2 c with Some _ => Some (parse_digits 0 s) | None => None end
  | [] => None
  end.

(** [Number.prototype.toString(radix)] on integers. *)
Fixpoint pos_digits (radix : positive) (fuel : nat) (p : Z) (acc : bits) : bits :=
  match fuel with
  | 0 => acc
  | S f =>
      let d := Z.modulo p (Zpos radix) in
      let q := Z.div p (Zpos radix) in
      let c := ascii_of_nat (if (d <? 10)%Z then 48 + Z.to_nat d else 87 + Z.to_nat d) in
      if (q =? 0)%Z then c :: acc else pos_digits radix f q (c :: acc)
  end.

Definition toString (radix : positive) (n : option Z) : bits :=
  match n with
  | None => ["N"; "a"; "N"]
  | Some z =>
      if (z =? 0)%Z then ["0"]
      else if (z <? 0)%Z then "-" :: pos_digits radix (Z.to_nat (Z.log2 (- z)) + 1) (- z) []
      else pos_digits radix (Z.to_nat (Z.log2 z) + 1) z []
  end.

Definition js_add (x y : option Z) : option Z :=
  match x, y with Some a, Some b => Some (a + b)%Z | _, _ => None end.

(** [add(w1, w2, length)] *)
Definition add (w1 w2 : bits) (len : nat) : bits :=
  let binaryResult := toString 2 (js_add (parseInt2 w1) (parseInt2 w2)) in
  if (length binaryResult <? len)%nat then
    getStringXTime ["0"] (len - length binaryResult) ++ binaryResult
  else if (len <? length binaryResult)%nat then
    skipn (length binaryResult - len) binaryResult
  else binaryResult.

(** [binToHex(str, length)]: the test is against the literal [8]. *)
Definition binToHex (str : bits) (len : nat) : bits :=
  let s := toString 16 (parseInt2 str) in
  if (length s <? 8)%nat then getStringXTime ["0"] (len - length s) ++ s else s.

End Utils.

(** ** Module [Main]: the function [sha1], step by step. *)
Module Main.
Import Utils.

Definition str_bits (s : string) : bits := list_ascii_of_string s.

(** The input string, as the UTF-16 code units [str.split("")] yields and
    [charCodeAt(0)] reads. *)
Definition code_units := list Z.

(** Steps 3 and 4: [c.toString(2)], then ['0'] prepended up to length 8. *)
Definition step3_ascii_binary (c : Z) : bits := toString 2 (Some c).

Definition step4_ascii_binary_8_length (c : bits) : bits :=
  if (length c <? 8)%nat then getStringXTime ["0"] (8 - length c) ++ c else c.

(** Steps 1 to 5. *)
Definition step5_combine_str (str : code_units) : bits :=
  concat (map (fun c => step4_ascii_binary_8_length (step3_ascii_binary c)) str).

Definition step6_append_1 (step5 : bits) : bits := step5 ++ ["1"].

Definition step7_modulo_512_is_448 (str : bits) : bits :=
  let currentModulo := length str mod 512 in
  if (currentModulo <? 448)%nat then str ++ getStringXTime ["0"] (448 - currentModulo)
  else if (448 <? currentModulo)%nat then str ++ getStringXTime ["0"] (512 - currentModulo + 448)
  else str.

(** Step 8; [getStringXTime('0', count)] calls [new Array(count + 1)], which
    throws a [RangeError] when [count + 1 < 0]. *)
Definition step8_append_step5_length (str step5 : bits) : option bits :=
  let step5BinaryLength := toString 2 (Some (Z.of_nat (length step5))) in
  let count := (64 - Z.of_nat (length step5BinaryLength))%Z in
  if (count + 1 <? 0)%Z then None
  else Some (str ++ (getStringXTime ["0"] (Z.to_nat count) ++ step5BinaryLength)).

(** [while (str.length > 0) { chunks.push(str.substr(0, n)); str = str.substr(n); }],
    with fuel [length str], enough for [n >= 1]. *)
Fixpoint split_every (fuel n : nat) (str : bits) : list bits :=
  match fuel with
  | 0 => []
  | S f => match str with
           | [] => []
           | _ => firstn n str :: split_every f n (skipn n str)
           end
  end.

Definition step9_split_512b_chunks (str : bits) : list bits :=
  split_every (length str) 512 str.

Definition step10_split_32b_words (chunks : list bits) : list (list bits) :=
  map (fun chunk => split_every (length chunk) 32 chunk) chunks.

(** The inner loop of step 11:
    [for (j = 16; words.length < 80; j++) words.push(rotate(xor(xor(xor(words[j-3], words[j-8]), words[j-14]), words[j-16]), 1))].
    Reading past the end gives [undefined], on which [xor] throws a
    [TypeError]; 80 iterations of fuel suffice, as each one pushes a word. *)
Fixpoint extend_words (fuel j : nat) (words : list bits) : option (list bits) :=
  match fuel with
  | 0 => Some words
  | S f =>
      if (length words <? 80)%nat then
        let* w3 := nth_error words (j - 3) in
        let* w8 := nth_error words (j - 8) in
        let* w14 := nth_error words (j - 14) in
        let* w16 := nth_error words (j - 16) in
        let tmp := xor w3 w8 in
        let tmp := xor tmp w14 in
        let tmp := xor tmp w16 in
        let tmp := rotate tmp 1 in
        extend_words f (S j) (words ++ [tmp])
      else Some words
  end.

Definition step11_words (words : list bits) : option (list bits) :=
  extend_words 80 16 words.

Fixpoint step11_80_words_per_chunk (chunks : list (list bits)) : option (list (list bits)) :=
  match chunks with
  | [] => Some []
  | words :: rest =>
      let* w := step11_words words in
      let* r := step11_80_words_per_chunk rest in
      Some (w :: r)
  end.

(** Step 12. *)
Definition h0_init := str_bits "01100111010001010010001100000001".
Definition h1_init := str_bits "11101111110011011010101110001001".
Definition h2_init := str_bits "10011000101110101101110011111110".
Definition h3_init := str_bits "00010000001100100101010001110110".
Definition h4_init := str_bits "11000011110100101110000111110000".

Record regs := Regs { ra : bits; rb : bits; rc : bits; rd : bits; re : bits }.

(** Round function [f] and constant [k] of round [i]. *)
Definition round_fk (i : nat) (b c d : bits) : bits * bits :=
  if (i <? 20)%nat then
    (or (and b c) (and (not b) d), str_bits "01011010100000100111100110011001")
  else if (i <? 40)%nat then
    (xor (xor b c) d, str_bits "01101110110110011110101110100001")
  else if (i <? 60)%nat then
    (xor (xor (and b c) (and b d)) (and c d), str_bits "10001111000110111011110011011100")
  else
    (xor (xor b c) d, str_bits "11001010011000101100000111010110").

Definition round_tmp (r : regs) (i : nat) (w : bits) : bits :=
  let '(f, k) := round_fk i (rb r) (rc r) (rd r) in
  let tmp := rotate (ra r) 5 in
  let tmp := add tmp f 32 in
  let tmp := add tmp (re r) 32 in
  let tmp := add tmp k 32 in
  add tmp w 32.

(** One iteration of [for (i = 0; i < 80; i++)] in step 13. *)
Definition round (r : regs) (i : nat) (w : bits) : regs :=
  Regs (round_tmp r i w) (ra r) (rotate (rb r) 30) (rc r) (rd r).

(** Rounds [i], [i+1], ... ([n] of them) on the schedule [words]; [words[i]]
    is always defined (step 11 leaves 80 words), and [nth]'s default [[]]
    parses as [NaN] exactly as [undefined] would. *)
Fixpoint rounds (n i : nat) (words : list bits) (r : regs) : regs :=
  match n with
  | 0 => r
  | S n' => rounds n' (S i) words (round r i (nth i words []))
  end.

(** The body of [step11_80_words_per_chunk.forEach]. *)
Definition process_chunk (h : regs) (words : list bits) : regs :=
  let r := rounds 80 0 words h in
  Regs (add (ra h) (ra r) 32) (add (rb h) (rb r) 32) (add (rc h) (rc r) 32)
       (add (rd h) (rd r) 32) (add (re h) (re r) 32).

Definition h_init := Regs h0_init h1_init h2_init h3_init h4_init.

Definition step14_finalize (h : regs) : bits :=
  binToHex (ra h) 8 ++ binToHex (rb h) 8 ++ binToHex (rc h) 8 ++
  binToHex (rd h) 8 ++ binToHex (re h) 8.

Definition padded (str : code_units) : option bits :=
  let step5 := step5_combine_str str in
  step8_append_step5_length (step7_modulo_512_is_448 (step6_append_1 step5)) step5.

Definition schedule (str : code_units) : option (list (list bits)) :=
  let* p := padded str in
  step11_80_words_per_chunk (step10_split_32b_words (step9_split_512b_chunks p)).

Definition sha1 (str : code_units) : option bits :=
  let* chunks := schedule str in
  Some (step14_finalize (fold_left process_chunk chunks h_init)).

(** A JS string literal of one-byte characters as its code units. *)
Definition js_str (s : string) : code_units :=
  map (fun c => Z.of_nat (nat_of_ascii c)) (list_ascii_of_string s).

End Main.

(** ** Values of binary strings, and 32-bit words as the spec describes them *)
Module Bits.
Import Utils.

Definition is_bit (c : ascii) : bool := Ascii.eqb c "0" || Ascii.eqb c "1".
Definition is_bin (w : bits) : bool := forallb is_bit w.
(** A 32-character string of ['0'] and ['1']. *)
Definition bin32 (w : bits) : Prop := length w = 32%nat /\ is_bin w = true.

Definition bitZ (c : ascii) : Z := if Ascii.eqb c "1" then 1%Z else 0%Z.
Definition bitc (b : bool) : ascii := if b then "1" else "0".

(** Big-endian value of a string of binary digits. *)
Fixpoint bin_value (w : bits) : Z :=
  match w with
  | [] => 0%Z
  | c :: r => (bitZ c * 2 ^ Z.of_nat (length r) + bin_value r)%Z
  end.

(** The [n]-bit big-endian rendering of [z] (bits [n-1] down to [0]). *)
Fixpoint bits_be (n : nat) (z : Z) : bits :=
  match n with
  | 0 => []
  | S n' => bitc (Z.testbit z (Z.of_nat n')) :: bits_be n' z
  end.

(** Rotation of a 32-bit value left by [n] bits. *)
Definition rotl32 (n x : Z) : Z :=
  Z.land (Z.lor (Z.shiftl x n) (Z.shiftr x (32 - n))) (Z.ones 32).

Lemma is_bin_cons c w : is_bin (c :: w) = is_bit c && is_bin w.
Proof. reflexivity. Qed.

Lemma is_bin_app w1 w2 : is_bin (w1 ++ w2) = is_bin w1 && is_bin w2.
Proof. unfold is_bin. apply forallb_app. Qed.

Lemma is_bit_cases c : is_bit c = true -> c = "0" \/ c = "1".
Proof.
  unfold is_bit. intros H. apply orb_true_iff in H.
  destruct H as [H | H]; apply Ascii.eqb_eq in H; auto.
Qed.

Lemma is_bin_nth w i : is_bin w = true -> nth i w "0" = "0" \/ nth i w "0" = "1".
Proof.
  intros H. destruct (Nat.lt_ge_cases i (length w)) as [Hi | Hi].
  - apply is_bit_cases. unfold is_bin in H. rewrite forallb_forall in H.
    apply H, nth_In, Hi.
  - left. apply nth_overflow, Hi.
Qed.

Lemma bitZ_range c : (0 <= bitZ c <= 1)%Z.
Proof. unfold bitZ. destruct (Ascii.eqb c "1"); lia. Qed.

Lemma bin_value_bound w : (0 <= bin_value w < 2 ^ Z.of_nat (length w))%Z.
Proof.
  induction w as [| c r IH]; cbn [bin_value length]; [simpl; lia |].
  rewrite Nat2Z.inj_succ, Z.pow_succ_r by lia.
  pose proof (bitZ_range c). nia.
Qed.

Lemma bin_value_app w1 w2 :
  bin_value (w1 ++ w2) = (bin_value w1 * 2 ^ Z.of_nat (length w2) + bin_value w2)%Z.
Proof.
  induction w1 as [| c r IH]; simpl; [lia |].
  rewrite IH, length_app, Nat2Z.inj_add, Z.pow_add_r by lia. ring.
Qed.

Lemma bin_value_zeros n w : bin_value (repeat "0" n ++ w) = bin_value w.
Proof. induction n; simpl; auto. Qed.

Lemma length_bits_be n z : length (bits_be n z) = n.
Proof. induction n; simpl; auto. Qed.

Lemma is_bin_bits_be n z : is_bin (bits_be n z) = true.
Proof. induction n; simpl; auto. rewrite IHn. unfold bitc. destruct (Z.testbit _ _); reflexivity. Qed.

Lemma nth_bits_be n z i :
  (i < n)%nat -> nth i (bits_be n z) "0" = bitc (Z.testbit z (Z.of_nat (n - 1 - i))).
Proof.
  revert i. induction n as [| n IH]; intros i Hi; [lia |].
  destruct i as [| i]; simpl.
  - do 3 f_equal. lia.
  - rewrite IH by lia. do 3 f_equal. lia.
Qed.

Lemma testbit_bin_value w k :
  (k < length w)%nat ->
  Z.testbit (bin_value w) (Z.of_nat k) = Ascii.eqb (nth (length w - 1 - k) w "0") "1".
Proof.
  induction w as [| c r IH]; intros Hk; simpl in Hk; [lia |].
  pose proof (bin_value_bound r) as Hb. pose proof (bitZ_range c) as Hc.
  simpl bin_value.
  destruct (Nat.lt_ge_cases k (length r)) as [Hlt | Hge].
  - rewrite <- (Z.mod_pow2_bits_low _ (Z.of_nat (length r))) by lia.
    rewrite Z.add_comm, Z.mod_add, Z.mod_small by lia.
    rewrite IH by lia. simpl length.
    replace (S (length r) - 1 - k)%nat with (S (length r - 1 - k)) by lia. reflexivity.
  - assert (k = length r) by lia. subst k. simpl length.
    replace (S (length r) - 1 - length r)%nat with 0%nat by lia. simpl nth.
    replace (Z.of_nat (length r)) with (0 + Z.of_nat (length r))%Z at 2 by lia.
    rewrite <- Z.div_pow2_bits by lia.
    rewrite Z.div_add_l, Z.div_small, Z.add_0_r by lia.
    unfold bitZ. destruct (Ascii.eqb c "1"); reflexivity.
Qed.

Lemma bitc_eqb c : c = "0" \/ c = "1" -> bitc (Ascii.eqb c "1") = c.
Proof. intros [-> | ->]; reflexivity. Qed.

(** A binary string is the big-endian rendering of its value. *)
Lemma bits_be_bin_value w : is_bin w = true -> bits_be (length w) (bin_value w) = w.
Proof.
  intros Hw. apply nth_ext with (d := "0") (d' := "0"); rewrite length_bits_be; auto.
  intros i Hi. rewrite nth_bits_be by lia.
  rewrite testbit_bin_value by lia.
  replace (length w - 1 - (length w - 1 - i))%nat with i by lia.
  apply bitc_eqb, is_bin_nth, Hw.
Qed.

Lemma bits_be_mod n z : bits_be n (z mod 2 ^ Z.of_nat n) = bits_be n z.
Proof.
  apply nth_ext with (d := "0") (d' := "0"); rewrite !length_bits_be; auto.
  intros i Hi. rewrite !nth_bits_be by lia. rewrite Z.mod_pow2_bits_low by lia. reflexivity.
Qed.

Lemma bin_value_bits_be n z : bin_value (bits_be n z) = (z mod 2 ^ Z.of_nat n)%Z.
Proof.
  apply Z.bits_inj'. intros k Hk.
  destruct (Z.lt_ge_cases k (Z.of_nat n)) as [Hlt | Hge].
  - rewrite Z.mod_pow2_bits_low by lia.
    rewrite <- (Z2Nat.id k) by lia.
    rewrite testbit_bin_value by (rewrite length_bits_be; lia).
    rewrite length_bits_be, nth_bits_be by lia.
    replace (n - 1 - (n - 1 - Z.to_nat k))%nat with (Z.to_nat k) by lia.
    destruct (Z.testbit z (Z.of_nat (Z.to_nat k))); reflexivity.
  - rewrite Z.mod_pow2_bits_high by lia.
    pose proof (bin_value_bound (bits_be n z)) as Hb. rewrite length_bits_be in Hb.
    rewrite <- (Z.mod_small (bin_value (bits_be n z)) (2 ^ Z.of_nat n)) by lia.
    apply Z.mod_pow2_bits_high. lia.
Qed.

(** *** The bitwise operations of [Utils] *)

Lemma zip_bits_same_length f w1 w2 :
  length w1 = length w2 ->
  length (zip_bits f w1 w2) = length w1 /\
  forall i, (i < length w1)%nat ->
    nth i (zip_bits f w1 w2) "0" = f (Some (nth i w1 "0")) (Some (nth i w2 "0")).
Proof.
  revert w2. induction w1 as [| c1 r1 IH]; intros [| c2 r2] Hl; simpl in *; try lia.
  - split; [reflexivity | intros; lia].
  - destruct (IH r2) as [IHl IHn]; [lia |]. split; [lia |].
    intros [| i] Hi; simpl; auto. apply IHn. lia.
Qed.

(** A character operation [f] that acts on binary digits as the boolean
    operation [g], lifted by [zip_bits], is the operation [G] on values whose
    bits are [g] of the arguments' bits. *)
Lemma zip_bits_bits_be f (g : bool -> bool -> bool) (G : Z -> Z -> Z) n w1 w2 :
  (forall a b, is_bit a = true -> is_bit b = true ->
     f (Some a) (Some b) = bitc (g (Ascii.eqb a "1") (Ascii.eqb b "1"))) ->
  (forall x y k, Z.testbit (G x y) k = g (Z.testbit x k) (Z.testbit y k)) ->
  length w1 = n -> length w2 = n -> is_bin w1 = true -> is_bin w2 = true ->
  zip_bits f w1 w2 = bits_be n (G (bin_value w1) (bin_value w2)).
Proof.
  intros Hf HG H1 H2 B1 B2.
  destruct (zip_bits_same_length f w1 w2) as [Hl Hn]; [lia |].
  apply nth_ext with (d := "0") (d' := "0"); rewrite ?length_bits_be; [lia |].
  intros i Hi. rewrite Hn by lia. rewrite nth_bits_be by lia. rewrite HG.
  assert (E1 : Z.testbit (bin_value w1) (Z.of_nat (n - 1 - i)) = Ascii.eqb (nth i w1 "0") "1").
  { rewrite testbit_bin_value by lia. do 2 f_equal. lia. }
  assert (E2 : Z.testbit (bin_value w2) (Z.of_nat (n - 1 - i)) = Ascii.eqb (nth i w2 "0") "1").
  { rewrite testbit_bin_value by lia. do 2 f_equal. lia. }
  rewrite E1, E2. apply Hf; unfold is_bit.
  - destruct (is_bin_nth w1 i B1) as [-> | ->]; reflexivity.
  - destruct (is_bin_nth w2 i B2) as [-> | ->]; reflexivity.
Qed.

Ltac bit_cases :=
  intros a b Ha Hb;
  destruct (is_bit_cases a Ha); destruct (is_bit_cases b Hb); subst; reflexivity.

Lemma xor_bits_be n w1 w2 :
  length w1 = n -> length w2 = n -> is_bin w1 = true -> is_bin w2 = true ->
  xor w1 w2 = bits_be n (Z.lxor (bin_value w1) (bin_value w2)).
Proof. apply zip_bits_bits_be with (g := xorb); [bit_cases | apply Z.lxor_spec]. Qed.

Lemma and_bits_be n w1 w2 :
  length w1 = n -> length w2 = n -> is_bin w1 = true -> is_bin w2 = true ->
  and w1 w2 = bits_be n (Z.land (bin_value w1) (bin_value w2)).
Proof. apply zip_bits_bits_be with (g := andb); [bit_cases | apply Z.land_spec]. Qed.

Lemma or_bits_be n w1 w2 :
  length w1 = n -> length w2 = n -> is_bin w1 = true -> is_bin w2 = true ->
  or w1 w2 = bits_be n (Z.lor (bin_value w1) (bin_value w2)).
Proof. apply zip_bits_bits_be with (g := orb); [bit_cases | apply Z.lor_spec]. Qed.

Lemma not_bin w : length (not w) = length w /\ is_bin (not w) = true.
Proof.
  unfold not. rewrite length_map. split; [reflexivity |].
  induction w as [| c r IH]; simpl; auto. rewrite IH.
  destruct (Ascii.eqb c "0"); reflexivity.
Qed.

Lemma rotate1_bin w : length (rotate1 w) = length w /\ is_bin (rotate1 w) = is_bin w.
Proof.
  destruct w as [| c r]; simpl; auto. rewrite length_app, is_bin_app. simpl.
  split; [lia |]. rewrite andb_true_r. apply andb_comm.
Qed.

Lemma rotate_bin w n : length (rotate w n) = length w /\ is_bin (rotate w n) = is_bin w.
Proof.
  revert w. induction n as [| n IH]; intros w; simpl; auto.
  destruct (IH (rotate1 w)) as [-> ->]. apply rotate1_bin.
Qed.

Lemma rotate1_bits_be w :
  length w = 32%nat -> is_bin w = true ->
  rotate w 1 = bits_be 32 (rotl32 1 (bin_value w)).
Proof.
  intros Hl Hb. pose proof (bin_value_bound w) as Hv. rewrite Hl in Hv.
  change (Z.of_nat 32) with 32%Z in Hv.
  assert (Ebit : forall k, (k < 32)%nat ->
    Z.testbit (bin_value w) (Z.of_nat k) = Ascii.eqb (nth (31 - k) w "0") "1").
  { intros k Hk. rewrite testbit_bin_value by lia. rewrite Hl. reflexivity. }
  destruct w as [| c r]; [discriminate |].
  assert (Hr : length r = 31%nat) by (simpl in Hl; lia). clear Hl.
  simpl in Hb. apply andb_true_iff in Hb. destruct Hb as [Hc Hb].
  simpl rotate. unfold rotate1.
  apply nth_ext with (d := "0") (d' := "0");
    rewrite ?length_bits_be, ?length_app; simpl length; [lia |].
  intros i Hi. rewrite nth_bits_be by lia. unfold rotl32.
  rewrite Z.land_spec, Z.lor_spec, Z.ones_spec_low by lia. rewrite andb_true_r.
  destruct (Nat.eq_dec i 31) as [-> | Hne].
  - rewrite app_nth2 by lia. rewrite Hr, Nat.sub_diag.
    change (Z.of_nat (32 - 1 - 31)) with 0%Z.
    rewrite Z.shiftl_spec_low by lia. rewrite orb_false_l.
    rewrite Z.shiftr_spec by lia. change (0 + (32 - 1))%Z with (Z.of_nat 31).
    rewrite Ebit by lia. change (nth (31 - 31) (c :: r) "0") with c.
    symmetry. apply bitc_eqb, is_bit_cases, Hc.
  - rewrite app_nth1 by lia.
    rewrite Z.shiftl_spec by lia.
    rewrite Z.shiftr_spec by lia.
    rewrite <- (Z.mod_small (bin_value (c :: r)) (2 ^ 32)) at 2 by lia.
    rewrite (Z.mod_pow2_bits_high _ 32) by lia. rewrite orb_false_r.
    replace (Z.of_nat (32 - 1 - i) - 1)%Z with (Z.of_nat (30 - i)) by lia.
    rewrite Ebit by lia.
    replace (31 - (30 - i))%nat with (S i) by lia. change (nth (S i) (c :: r) "0") with (nth i r "0").
    symmetry. apply bitc_eqb. apply (is_bin_nth r i Hb).
Qed.

(** *** [parseInt], [toString] and [add] *)

Lemma bits_be_of r n z :
  is_bin r = true -> length r = n -> (bin_value r mod 2 ^ Z.of_nat n = z mod 2 ^ Z.of_nat n)%Z ->
  r = bits_be n z.
Proof.
  intros Hb Hl Hm. rewrite <- (bits_be_bin_value r Hb), Hl.
  rewrite <- bits_be_mod, Hm. apply bits_be_mod.
Qed.

Lemma getStringXTime_zeros k : getStringXTime ["0"] k = repeat "0" k.
Proof. induction k; simpl; auto. unfold getStringXTime in *. simpl. now rewrite IHk. Qed.

Lemma is_bin_repeat0 k : is_bin (repeat "0" k) = true.
Proof. induction k; simpl; auto. Qed.

Lemma digit2_bit c : is_bit c = true -> digit2 c = Some (bitZ c).
Proof. intros H. destruct (is_bit_cases c H) as [-> | ->]; reflexivity. Qed.

Lemma parse_digits_bin acc w :
  is_bin w = true -> parse_digits acc w = (acc * 2 ^ Z.of_nat (length w) + bin_value w)%Z.
Proof.
  revert acc. induction w as [| c r IH]; intros acc Hb; cbn [parse_digits length bin_value];
    [simpl; lia |].
  apply andb_true_iff in Hb. destruct Hb as [Hc Hr].
  rewrite digit2_bit by exact Hc. rewrite IH by exact Hr.
  rewrite Nat2Z.inj_succ, Z.pow_succ_r by lia. ring.
Qed.

Lemma parseInt2_bin w : is_bin w = true -> w <> [] -> parseInt2 w = Some (bin_value w).
Proof.
  intros Hb Hne. destruct w as [| c r]; [congruence |].
  unfold parseInt2. pose proof Hb as Hb'. simpl in Hb'. apply andb_true_iff in Hb'.
  rewrite digit2_bit by tauto. rewrite parse_digits_bin by exact Hb. reflexivity.
Qed.

Lemma pos_digits_2 f p acc :
  (0 < p < 2 ^ Z.of_nat f)%Z -> is_bin acc = true ->
  is_bin (pos_digits 2 f p acc) = true /\
  bin_value (pos_digits 2 f p acc) = (p * 2 ^ Z.of_nat (length acc) + bin_value acc)%Z.
Proof.
  revert p acc. induction f as [| f IH]; intros p acc Hp Hacc; [simpl in Hp; lia |].
  cbn [pos_digits].
  pose proof (Z.div_mod p 2 ltac:(lia)) as Hdm.
  assert (Hd : (p mod 2 = 0 \/ p mod 2 = 1)%Z) by (pose proof (Z.mod_pos_bound p 2); lia).
  set (d := (p mod Z.pos 2)%Z) in *. set (q := (p / Z.pos 2)%Z) in *.
  assert (Hc : exists c, ascii_of_nat (if (d <? 10)%Z then 48 + Z.to_nat d else 87 + Z.to_nat d) = c
                  /\ is_bit c = true /\ bitZ c = d).
  { destruct Hd as [-> | ->]; eexists; split; [reflexivity | split; reflexivity |
                                             reflexivity | split; reflexivity]. }
  destruct Hc as (c & -> & Hcb & Hcv).
  assert (Hq : (0 <= q)%Z) by (apply Z.div_pos; lia).
  destruct (q =? 0)%Z eqn:Eq.
  - apply Z.eqb_eq in Eq. split; [simpl; rewrite Hcb; exact Hacc |].
    simpl. rewrite Hcv. lia.
  - apply Z.eqb_neq in Eq.
    destruct (IH q (c :: acc)) as [H1 H2].
    + rewrite Nat2Z.inj_succ, Z.pow_succ_r in Hp by lia. lia.
    + simpl. rewrite Hcb. exact Hacc.
    + split; [exact H1 |]. rewrite H2. simpl length. simpl bin_value.
      rewrite Hcv, Nat2Z.inj_succ, Z.pow_succ_r by lia. nia.
Qed.

Lemma pos_digits_length r f p acc k :
  (1 < Z.pos r)%Z -> (0 < p < Z.pos r ^ Z.of_nat k)%Z ->
  (length (pos_digits r f p acc) <= length acc + k)%nat.
Proof.
  intros Hr. revert p acc k. induction f as [| f IH]; intros p acc k Hp; simpl; [lia |].
  destruct k as [| k]; [simpl in Hp; lia |].
  destruct (p / Z.pos r =? 0)%Z eqn:Eq; simpl; [lia |].
  apply Z.eqb_neq in Eq.
  assert (Hq : (0 <= p / Z.pos r)%Z) by (apply Z.div_pos; lia).
  assert (Hlt : (p / Z.pos r < Z.pos r ^ Z.of_nat k)%Z).
  { apply Z.div_lt_upper_bound; [lia |].
    rewrite Nat2Z.inj_succ, Z.pow_succ_r in Hp by lia. lia. }
  specialize (IH (p / Z.pos r)%Z (ascii_of_nat (if (p mod Z.pos r <? 10)%Z
     then 48 + Z.to_nat (p mod Z.pos r) else 87 + Z.to_nat (p mod Z.pos r)) :: acc) k).
  simpl in IH. lia.
Qed.

Lemma toString2_spec z :
  (0 <= z)%Z ->
  let s := toString 2 (Some z) in
  is_bin s = true /\ bin_value s = z /\ s <> [] /\
  (forall k, (z < 2 ^ Z.of_nat k)%Z -> (1 <= k)%nat -> (length s <= k)%nat).
Proof.
  intros Hz s. subst s. unfold toString.
  destruct (z =? 0)%Z eqn:E0.
  { apply Z.eqb_eq in E0. subst z. repeat split; [discriminate |]. intros k _ Hk. simpl. lia. }
  apply Z.eqb_neq in E0. destruct (z <? 0)%Z eqn:En; [apply Z.ltb_lt in En; lia |].
  assert (Hlog : (0 < z < 2 ^ Z.of_nat (Z.to_nat (Z.log2 z) + 1))%Z).
  { pose proof (Z.log2_spec z ltac:(lia)) as [_ H]. pose proof (Z.log2_nonneg z).
    rewrite Nat2Z.inj_add, Z2Nat.id by lia. rewrite Z.add_1_r. lia. }
  destruct (pos_digits_2 (Z.to_nat (Z.log2 z) + 1) z [] Hlog eq_refl) as [H1 H2].
  simpl in H2. rewrite Z.mul_1_r, Z.add_0_r in H2.
  repeat split; auto.
  - intros E. rewrite E in H2. simpl in H2. lia.
  - intros k Hk _. pose proof (pos_digits_length 2 (Z.to_nat (Z.log2 z) + 1) z [] k
                                 ltac:(lia) ltac:(lia)). simpl in H. lia.
Qed.

(** [add(w1, w2, n)] on binary strings: the [n]-bit rendering of the sum
    modulo [2^n]. *)
Lemma add_bits_be w1 w2 n :
  is_bin w1 = true -> is_bin w2 = true -> w1 <> [] -> w2 <> [] ->
  add w1 w2 n = bits_be n ((bin_value w1 + bin_value w2) mod 2 ^ Z.of_nat n).
Proof.
  intros B1 B2 N1 N2. rewrite bits_be_mod.
  pose proof (bin_value_bound w1). pose proof (bin_value_bound w2).
  unfold add. rewrite (parseInt2_bin w1), (parseInt2_bin w2) by assumption. simpl js_add.
  destruct (toString2_spec (bin_value w1 + bin_value w2) ltac:(lia)) as (Hb & Hv & Hne & _).
  set (s := toString 2 (Some (bin_value w1 + bin_value w2)%Z)) in *.
  pose proof (bin_value_bound s) as Hs.
  destruct (length s <? n)%nat eqn:E1; [| destruct (n <? length s)%nat eqn:E2].
  - apply Nat.ltb_lt in E1. rewrite getStringXTime_zeros.
    apply bits_be_of.
    + rewrite is_bin_app, is_bin_repeat0. exact Hb.
    + rewrite length_app, repeat_length. lia.
    + rewrite bin_value_zeros, Hv. reflexivity.
  - apply Nat.ltb_lt in E2. apply bits_be_of.
    + rewrite <- (firstn_skipn (length s - n) s) in Hb. rewrite is_bin_app in Hb.
      apply andb_true_iff in Hb. tauto.
    + rewrite length_skipn. lia.
    + rewrite <- Hv.
      assert (E : bin_value s = (bin_value (firstn (length s - n) s) * 2 ^ Z.of_nat n
                                 + bin_value (skipn (length s - n) s))%Z).
      { rewrite <- (firstn_skipn (length s - n) s) at 1. rewrite bin_value_app, length_skipn.
        do 4 f_equal. lia. }
      rewrite E, Z.add_comm, Z.mod_add by (apply Z.pow_nonzero; lia). reflexivity.
  - apply Nat.ltb_ge in E1, E2. apply bits_be_of; [exact Hb | lia | rewrite Hv; reflexivity].
Qed.

End Bits.

(** ** Properties of the pipeline *)
Module Pipeline.
Import Utils Bits Main.

(** *** Steps 1 to 5: the input encoding *)

(** What [sha1] can receive: a JS string, at most [2^53 - 1] UTF-16 code
    units long. *)
Definition js_string_ok (str : code_units) : Prop :=
  (Z.of_nat (length str) < 2 ^ 53)%Z /\ Forall (fun c => 0 <= c < 2 ^ 16)%Z str.

(** The message's bit-length: the length of the string of step 5. *)
Definition bit_length (str : code_units) : nat := length (step5_combine_str str).

Lemma step4_group c :
  (0 <= c)%Z ->
  let g := step4_ascii_binary_8_length (step3_ascii_binary c) in
  is_bin g = true /\ bin_value g = c /\
  (forall k, (c < 2 ^ Z.of_nat k)%Z -> (8 <= k)%nat -> (length g <= k)%nat) /\
  ((c < 2 ^ 8)%Z -> length g = 8%nat).
Proof.
  intros Hc g. subst g. unfold step3_ascii_binary, step4_ascii_binary_8_length.
  destruct (toString2_spec c Hc) as (Hb & Hv & Hne & Hlen).
  set (s := toString 2 (Some c)) in *.
  destruct (length s <? 8)%nat eqn:E.
  - apply Nat.ltb_lt in E. rewrite getStringXTime_zeros, is_bin_app, is_bin_repeat0,
      bin_value_zeros, length_app, repeat_length.
    repeat split; auto; intros; lia.
  - apply Nat.ltb_ge in E. repeat split; auto.
    + intros k Hk Hk8. apply Hlen; [exact Hk | lia].
    + intros H8. specialize (Hlen 8%nat ltac:(exact H8) ltac:(lia)). lia.
Qed.

Lemma step4_byte c :
  (0 <= c < 256)%Z -> step4_ascii_binary_8_length (step3_ascii_binary c) = bits_be 8 c.
Proof.
  intros Hc. destruct (step4_group c ltac:(lia)) as (Hb & Hv & _ & Hl).
  apply bits_be_of; [exact Hb | apply Hl; simpl; lia | rewrite Hv; reflexivity].
Qed.

Lemma step5_combine_str_cons c r :
  step5_combine_str (c :: r) = step4_ascii_binary_8_length (step3_ascii_binary c) ++ step5_combine_str r.
Proof. reflexivity. Qed.

Lemma is_bin_step5 str :
  Forall (fun c => 0 <= c)%Z str -> is_bin (step5_combine_str str) = true.
Proof.
  induction 1 as [| c r Hc _ IH]; [reflexivity |].
  rewrite step5_combine_str_cons, is_bin_app, IH, andb_true_r.
  apply (step4_group c Hc).
Qed.

(** Each code unit below [2^16] takes at most 16 bits. *)
Lemma bit_length_le str :
  Forall (fun c => 0 <= c < 2 ^ 16)%Z str -> (bit_length str <= 16 * length str)%nat.
Proof.
  unfold bit_length. induction 1 as [| c r Hc _ IH]; [simpl; lia |].
  rewrite step5_combine_str_cons, length_app. simpl length.
  destruct (step4_group c ltac:(lia)) as (_ & _ & Hl & _).
  specialize (Hl 16%nat ltac:(simpl; lia) ltac:(lia)). lia.
Qed.

Lemma js_string_bit_length str :
  js_string_ok str -> (Z.of_nat (bit_length str) < 2 ^ 64)%Z.
Proof.
  intros [Hlen Hc]. pose proof (bit_length_le str Hc). lia.
Qed.

(** *** Steps 6 to 8: padding *)

Lemma Some_eq {A} (x y : A) : Some x = Some y -> x = y.
Proof. congruence. Qed.

Lemma step7_spec str :
  exists k, step7_modulo_512_is_448 str = str ++ repeat "0" k /\
            ((length str + k) mod 512 = 448)%nat.
Proof.
  unfold step7_modulo_512_is_448. rewrite getStringXTime_zeros, getStringXTime_zeros.
  pose proof (Nat.div_mod_eq (length str) 512) as Hdm.
  pose proof (Nat.mod_upper_bound (length str) 512 ltac:(lia)) as Hub.
  set (m := (length str mod 512)%nat) in *. set (q := (length str / 512)%nat) in *.
  destruct (m <? 448)%nat eqn:E1; [| destruct (448 <? m)%nat eqn:E2].
  - apply Nat.ltb_lt in E1. exists (448 - m)%nat. split; [reflexivity |].
    symmetry. apply (Nat.mod_unique _ _ q); lia.
  - apply Nat.ltb_lt in E2. exists (512 - m + 448)%nat. split; [reflexivity |].
    symmetry. apply (Nat.mod_unique _ _ (S q)); lia.
  - apply Nat.ltb_ge in E1, E2. exists 0%nat. rewrite app_nil_r. split; [reflexivity |].
    rewrite Nat.add_0_r. fold m. lia.
Qed.

Lemma step8_spec str step5 :
  (Z.of_nat (length step5) < 2 ^ 64)%Z ->
  step8_append_step5_length str step5 = Some (str ++ bits_be 64 (Z.of_nat (length step5))).
Proof.
  intros HL. unfold step8_append_step5_length.
  destruct (toString2_spec (Z.of_nat (length step5)) ltac:(lia)) as (Hb & Hv & _ & Hlen).
  set (s := toString 2 (Some (Z.of_nat (length step5)))) in *.
  specialize (Hlen 64%nat HL ltac:(lia)).
  destruct (64 - Z.of_nat (length s) + 1 <? 0)%Z eqn:E; [apply Z.ltb_lt in E; lia |].
  rewrite getStringXTime_zeros. do 2 f_equal.
  apply bits_be_of.
  - rewrite is_bin_app, is_bin_repeat0. exact Hb.
  - rewrite length_app, repeat_length. lia.
  - rewrite bin_value_zeros, Hv. reflexivity.
Qed.

Lemma padded_spec str :
  (Z.of_nat (bit_length str) < 2 ^ 64)%Z ->
  exists k, padded str = Some (step5_combine_str str ++ ["1"] ++ repeat "0" k ++
                               bits_be 64 (Z.of_nat (bit_length str))) /\
            ((bit_length str + 1 + k) mod 512 = 448)%nat.
Proof.
  intros HL. unfold padded.
  destruct (step7_spec (step6_append_1 (step5_combine_str str))) as (k & Hk & Hm).
  exists k. rewrite Hk, step8_spec by exact HL. split.
  - unfold step6_append_1, bit_length. rewrite <- !app_assoc. reflexivity.
  - unfold step6_append_1 in Hm. rewrite length_app in Hm. exact Hm.
Qed.

Lemma padded_length str p :
  js_string_ok str -> padded str = Some p ->
  (length p mod 512 = 0)%nat /\ (512 <= length p)%nat /\ is_bin p = true.
Proof.
  intros Hjs Hp. pose proof (js_string_bit_length str Hjs) as HL.
  destruct (padded_spec str HL) as (k & Hk & Hm).
  rewrite Hp in Hk. apply Some_eq in Hk. subst p.
  rewrite !length_app, length_bits_be, repeat_length. simpl length.
  pose proof (Nat.div_mod_eq (bit_length str + 1 + k) 512) as Hdm.
  fold (bit_length str). rewrite Hm in Hdm.
  split; [| split].
  - symmetry. apply (Nat.mod_unique _ _ (S ((bit_length str + 1 + k) / 512))); lia.
  - lia.
  - rewrite !is_bin_app, is_bin_repeat0, is_bin_bits_be, is_bin_step5; [reflexivity |].
    destruct Hjs as [_ Hc]. revert Hc. apply Forall_impl. intros; lia.
Qed.

(** *** Steps 9 and 10: blocks and words *)

Lemma split_every_spec n fuel s k :
  (0 < n)%nat -> length s = (k * n)%nat -> (k <= fuel)%nat ->
  length (split_every fuel n s) = k /\
  Forall (fun c => length c = n) (split_every fuel n s) /\
  concat (split_every fuel n s) = s.
Proof.
  intros Hn. revert s k. induction fuel as [| f IH]; intros s k Hs Hk.
  - assert (k = 0%nat) by lia. subst k. destruct s; [| simpl in Hs; lia].
    repeat split; constructor.
  - destruct s as [| c r].
    + simpl in Hs. assert (k = 0%nat) by nia. subst k. repeat split; constructor.
    + assert (1 <= k)%nat by (destruct k; simpl in Hs; lia).
      destruct (IH (skipn n (c :: r)) (k - 1)%nat) as (H1 & H2 & H3).
      { rewrite length_skipn. nia. } { lia. }
      cbn [split_every].
      split; [| split].
      * cbn [length]. lia.
      * constructor; [| exact H2]. rewrite length_firstn. nia.
      * cbn [concat]. rewrite H3. apply firstn_skipn.
Qed.

Lemma is_bin_concat cs : is_bin (concat cs) = true -> Forall (fun c => is_bin c = true) cs.
Proof.
  induction cs as [| c r IH]; simpl; intros H; constructor;
    rewrite is_bin_app in H; apply andb_true_iff in H; tauto.
Qed.

(** A block: sixteen 32-bit words. *)
Definition block_ok (ws : list bits) : Prop := length ws = 16%nat /\ Forall bin32 ws.

Lemma blocks_of_padded p :
  (length p mod 512 = 0)%nat -> is_bin p = true ->
  Forall block_ok (step10_split_32b_words (step9_split_512b_chunks p)).
Proof.
  intros Hm Hb. unfold step10_split_32b_words, step9_split_512b_chunks.
  pose proof (Nat.div_mod_eq (length p) 512) as Hdm. rewrite Hm, Nat.add_0_r in Hdm.
  destruct (split_every_spec 512 (length p) p (length p / 512) ltac:(lia) ltac:(lia)
              ltac:(lia)) as (_ & Hl & Hc).
  rewrite <- Hc in Hb. apply is_bin_concat in Hb.
  set (cs := split_every (length p) 512 p) in *. clearbody cs. clear Hc.
  induction cs as [| c r IH]; simpl; constructor.
  - inversion Hl as [| ? ? Hlc _]. inversion Hb as [| ? ? Hbc _]. subst.
    destruct (split_every_spec 32 (length c) c 16 ltac:(lia) ltac:(lia) ltac:(lia))
      as (H1 & H2 & H3).
    split; [exact H1 |].
    rewrite <- H3 in Hbc. apply is_bin_concat in Hbc.
    revert H2 Hbc. generalize (split_every (length c) 32 c). clear.
    induction l as [| w r IH]; intros H2 Hb; constructor.
    + inversion H2. inversion Hb. split; assumption.
    + apply IH; [inversion H2 | inversion Hb]; assumption.
  - apply IH; [inversion Hb | inversion Hl]; assumption.
Qed.

(** *** Step 11: the message schedule *)

(** The word the loop of step 11 pushes at index [t]. *)
Definition next_word (W : list bits) (t : nat) : bits :=
  rotate (xor (xor (xor (nth (t - 3) W []) (nth (t - 8) W [])) (nth (t - 14) W []))
              (nth (t - 16) W [])) 1.

Definition sched_rec (W : list bits) : Prop :=
  forall t, (16 <= t < length W)%nat -> nth t W [] = next_word W t.

Lemma next_word_app W extra t :
  (16 <= t <= length W)%nat -> next_word (W ++ extra) t = next_word W t.
Proof. intros Ht. unfold next_word. rewrite !app_nth1 by lia. reflexivity. Qed.

Lemma extend_words_spec f words :
  (16 <= length words <= 80)%nat -> (80 <= length words + f)%nat -> sched_rec words ->
  exists W, extend_words f (length words) words = Some W /\ length W = 80%nat /\
    (forall t, (t < length words)%nat -> nth t W [] = nth t words []) /\ sched_rec W.
Proof.
  revert words. induction f as [| f IH]; intros words Hl Hf Hr.
  - exists words. simpl. repeat split; auto. lia.
  - cbn [extend_words]. destruct (length words <? 80)%nat eqn:E.
    + apply Nat.ltb_lt in E.
      rewrite !(nth_error_nth' words []) by lia. cbn [obind].
      set (tmp := rotate (xor (xor (xor (nth (length words - 3) words [])
                    (nth (length words - 8) words [])) (nth (length words - 14) words []))
                    (nth (length words - 16) words [])) 1).
      assert (Htmp : tmp = next_word words (length words)) by reflexivity.
      destruct (IH (words ++ [tmp])) as (W & HW & HWl & HWp & HWr).
      * rewrite length_app. simpl. lia.
      * rewrite length_app. simpl. lia.
      * intros t Ht. rewrite length_app in Ht. simpl in Ht.
        rewrite next_word_app by lia.
        destruct (Nat.eq_dec t (length words)) as [-> | Hne].
        -- rewrite nth_middle. exact Htmp.
        -- rewrite app_nth1 by lia. apply Hr. lia.
      * exists W. rewrite length_app in HW. simpl in HW. rewrite Nat.add_1_r in HW.
        repeat split; auto.
        intros t Ht. rewrite HWp by (rewrite length_app; simpl; lia).
        apply app_nth1. exact Ht.
    + apply Nat.ltb_ge in E. exists words. repeat split; auto. lia.
Qed.

Lemma step11_words_spec ws :
  length ws = 16%nat ->
  exists W, step11_words ws = Some W /\ length W = 80%nat /\
    (forall t, (t < 16)%nat -> nth t W [] = nth t ws []) /\ sched_rec W.
Proof.
  intros Hl. unfold step11_words. rewrite <- Hl.
  destruct (extend_words_spec 80 ws ltac:(lia) ltac:(lia)) as (W & H1 & H2 & H3 & H4).
  - intros t Ht. lia.
  - exists W. rewrite Hl in *. auto.
Qed.

(** *** 32-bit words *)

Lemma bin32_bits_be z : bin32 (bits_be 32 z).
Proof. split; [apply length_bits_be | apply is_bin_bits_be]. Qed.

Lemma bin32_nonempty w : bin32 w -> w <> [].
Proof. intros [Hl _] E. subst. discriminate. Qed.

Lemma xor_bin32 w1 w2 : bin32 w1 -> bin32 w2 -> bin32 (xor w1 w2).
Proof. intros [] []. rewrite (xor_bits_be 32) by assumption. apply bin32_bits_be. Qed.

Lemma and_bin32 w1 w2 : bin32 w1 -> bin32 w2 -> bin32 (and w1 w2).
Proof. intros [] []. rewrite (and_bits_be 32) by assumption. apply bin32_bits_be. Qed.

Lemma or_bin32 w1 w2 : bin32 w1 -> bin32 w2 -> bin32 (or w1 w2).
Proof. intros [] []. rewrite (or_bits_be 32) by assumption. apply bin32_bits_be. Qed.

Lemma not_bin32 w : bin32 w -> bin32 (not w).
Proof. intros [Hl _]. destruct (not_bin w). split; congruence. Qed.

Lemma rotate_bin32 w n : bin32 w -> bin32 (rotate w n).
Proof. intros [Hl Hb]. destruct (rotate_bin w n). split; congruence. Qed.

Lemma add_bits_be32 w1 w2 :
  bin32 w1 -> bin32 w2 -> add w1 w2 32 = bits_be 32 ((bin_value w1 + bin_value w2) mod 2 ^ 32).
Proof.
  intros H1 H2. rewrite add_bits_be; try apply bin32_nonempty; try apply H1; try apply H2; auto.
Qed.

Lemma add_bin32 w1 w2 : bin32 w1 -> bin32 w2 -> bin32 (add w1 w2 32).
Proof. intros H1 H2. rewrite add_bits_be32 by assumption. apply bin32_bits_be. Qed.

Lemma bin_value_bin32 w : bin32 w -> (0 <= bin_value w < 2 ^ 32)%Z.
Proof. intros [Hl _]. pose proof (bin_value_bound w). rewrite Hl in H. exact H. Qed.

Lemma testbit_bin32_high w k : bin32 w -> (32 <= k)%Z -> Z.testbit (bin_value w) k = false.
Proof.
  intros Hw Hk. pose proof (bin_value_bin32 w Hw).
  rewrite <- (Z.mod_small (bin_value w) (2 ^ 32)) by lia.
  apply Z.mod_pow2_bits_high. lia.
Qed.

Lemma bin_value_xor w1 w2 :
  bin32 w1 -> bin32 w2 -> bin_value (xor w1 w2) = Z.lxor (bin_value w1) (bin_value w2).
Proof.
  intros H1 H2. pose proof H1 as [L1 B1]. pose proof H2 as [L2 B2].
  rewrite (xor_bits_be 32), bin_value_bits_be by assumption.
  apply Z.bits_inj'. intros k Hk.
  destruct (Z.lt_ge_cases k 32) as [Hlt | Hge].
  - apply Z.mod_pow2_bits_low. exact Hlt.
  - rewrite Z.mod_pow2_bits_high by lia.
    rewrite Z.lxor_spec, !testbit_bin32_high by assumption. reflexivity.
Qed.

Lemma bin_value_rotate1 w :
  bin32 w -> bin_value (rotate w 1) = rotl32 1 (bin_value w).
Proof.
  intros [Hl Hb]. rewrite rotate1_bits_be, bin_value_bits_be by assumption.
  unfold rotl32. rewrite Z.land_ones by lia. apply Z.mod_mod. lia.
Qed.

Lemma next_word_bin32 (W : list bits) t :
  (16 <= t)%nat ->
  (forall u, (u < t)%nat -> bin32 (nth u W [])) -> bin32 (next_word W t).
Proof.
  intros Ht H. unfold next_word.
  apply rotate_bin32; repeat apply xor_bin32; apply H; lia.
Qed.

Lemma sched_bin32 (W : list bits) :
  length W = 80%nat -> (forall t, (t < 16)%nat -> bin32 (nth t W [])) -> sched_rec W ->
  forall t, (t < 80)%nat -> bin32 (nth t W []).
Proof.
  intros HL H16 Hrec.
  assert (Hall : forall n t, (t < n)%nat -> (t < 80)%nat -> bin32 (nth t W [])).
  { induction n as [| n IH]; intros t Ht Ht80; [lia |].
    destruct (Nat.lt_ge_cases t 16) as [Hs | Hs]; [apply H16, Hs |].
    rewrite Hrec by lia. apply next_word_bin32; [exact Hs |].
    intros u Hu. apply IH; lia. }
  intros t Ht. apply (Hall (S t)); lia.
Qed.

(** The schedule of a block [ws], as the spec states it: the 16 words
    verbatim, then the recurrence on 32-bit values. *)
Definition schedule_ok (ws W : list bits) : Prop :=
  length W = 80%nat /\
  (forall t, (t < 16)%nat -> nth t W [] = nth t ws []) /\
  (forall t, (16 <= t < 80)%nat ->
     bin32 (nth t W []) /\
     bin_value (nth t W []) =
       rotl32 1 (Z.lxor (Z.lxor (Z.lxor (bin_value (nth (t - 3) W []))
                                        (bin_value (nth (t - 8) W [])))
                                (bin_value (nth (t - 14) W [])))
                        (bin_value (nth (t - 16) W [])))).

Lemma step11_words_ok ws :
  block_ok ws -> exists W, step11_words ws = Some W /\ schedule_ok ws W.
Proof.
  intros [Hl Hb]. destruct (step11_words_spec ws Hl) as (W & HW & HWl & HWp & HWr).
  assert (H16 : forall t, (t < 16)%nat -> bin32 (nth t W [])).
  { intros t Ht. rewrite HWp by exact Ht. rewrite Forall_forall in Hb.
    apply Hb, nth_In. lia. }
  pose proof (sched_bin32 W HWl H16 HWr) as Hall.
  exists W. split; [exact HW |]. split; [exact HWl | split; [exact HWp |]].
  intros t Ht. split; [apply Hall; lia |].
  rewrite HWr by lia. unfold next_word.
  rewrite bin_value_rotate1 by (repeat apply xor_bin32; apply Hall; lia).
  rewrite !bin_value_xor by (repeat apply xor_bin32; apply Hall; lia).
  reflexivity.
Qed.

Lemma step11_all blocks :
  Forall block_ok blocks ->
  exists Ws, step11_80_words_per_chunk blocks = Some Ws /\ Forall2 schedule_ok blocks Ws.
Proof.
  induction 1 as [| ws r Hws _ IH]; [exists []; split; constructor |].
  destruct (step11_words_ok ws Hws) as (W & HW & HWok).
  destruct IH as (Ws & HWs & Hok).
  exists (W :: Ws). simpl. rewrite HW, HWs. split; [reflexivity | constructor; assumption].
Qed.

Lemma schedule_ok_bin32 ws W : block_ok ws -> schedule_ok ws W -> Forall bin32 W.
Proof.
  intros [Hl Hb] (HL & Hp & Hr). apply Forall_forall. intros x Hx.
  destruct (In_nth W x [] Hx) as (t & Ht & <-).
  destruct (Nat.lt_ge_cases t 16) as [Hs | Hs].
  - rewrite Hp by exact Hs. rewrite Forall_forall in Hb. apply Hb, nth_In. lia.
  - apply Hr. lia.
Qed.

(** Every word of the schedule of a JS string is a 32-bit binary string. *)
Lemma schedule_spec str :
  js_string_ok str ->
  exists p Ws, padded str = Some p /\ schedule str = Some Ws /\
    Forall2 schedule_ok (step10_split_32b_words (step9_split_512b_chunks p)) Ws /\
    Forall (fun W => length W = 80%nat /\ Forall bin32 W) Ws.
Proof.
  intros Hjs. pose proof (js_string_bit_length str Hjs) as HL.
  destruct (padded_spec str HL) as (k & Hp & _).
  destruct (padded_length str _ Hjs Hp) as (Hm & _ & Hb).
  pose proof (blocks_of_padded _ Hm Hb) as Hblocks.
  destruct (step11_all _ Hblocks) as (Ws & HWs & Hok).
  eexists; exists Ws. split; [exact Hp |]. split; [unfold schedule; rewrite Hp; exact HWs |].
  split; [exact Hok |].
  clear HWs. induction Hok as [| ws W bs Ws' HwW _ IH]; constructor.
  - inversion Hblocks as [| ? ? Hws _]. split; [apply HwW |].
    apply (schedule_ok_bin32 ws); assumption.
  - apply IH. inversion Hblocks. assumption.
Qed.

(** *** Step 13: the compression *)

Definition regs_bin32 (r : regs) : Prop :=
  bin32 (ra r) /\ bin32 (rb r) /\ bin32 (rc r) /\ bin32 (rd r) /\ bin32 (re r).

Lemma h_init_bin32 : regs_bin32 h_init.
Proof. repeat split; reflexivity. Qed.

Lemma round_fk_bin32 i b c d :
  bin32 b -> bin32 c -> bin32 d ->
  bin32 (fst (round_fk i b c d)) /\ bin32 (snd (round_fk i b c d)).
Proof.
  intros Hb Hc Hd. unfold round_fk.
  destruct (i <? 20)%nat; [| destruct (i <? 40)%nat; [| destruct (i <? 60)%nat]];
    simpl; (split; [| split; reflexivity]);
    repeat first [apply or_bin32 | apply and_bin32 | apply xor_bin32 | apply not_bin32
                 | assumption].
Qed.

Lemma round_bin32 r i w : regs_bin32 r -> bin32 w -> regs_bin32 (round r i w).
Proof.
  intros (Ha & Hb & Hc & Hd & He) Hw. unfold round, round_tmp.
  destruct (round_fk_bin32 i (rb r) (rc r) (rd r) Hb Hc Hd) as [Hf Hk].
  destruct (round_fk i (rb r) (rc r) (rd r)) as [f k]. simpl in Hf, Hk.
  cbn [ra rb rc rd re]. split; [| split; [| split; [| split]]]; try assumption.
  - apply add_bin32; [| assumption]. apply add_bin32; [| assumption].
    apply add_bin32; [| assumption]. apply add_bin32; [| assumption].
    apply rotate_bin32; assumption.
  - apply rotate_bin32; assumption.
Qed.

Lemma rounds_bin32 (words : list bits) n i r :
  Forall bin32 words -> (i + n <= length words)%nat -> regs_bin32 r ->
  regs_bin32 (rounds n i words r).
Proof.
  intros Hw. revert i r. induction n as [| n IH]; intros i r Hn Hr; [exact Hr |].
  simpl. apply IH; [lia |]. apply round_bin32; [exact Hr |].
  rewrite Forall_forall in Hw. apply Hw, nth_In. lia.
Qed.

Lemma process_chunk_bin32 h (W : list bits) :
  length W = 80%nat -> Forall bin32 W -> regs_bin32 h -> regs_bin32 (process_chunk h W).
Proof.
  intros HL HW Hh. pose proof (rounds_bin32 W 80 0 h HW ltac:(lia) Hh) as Hr.
  destruct Hh as (? & ? & ? & ? & ?). destruct Hr as (? & ? & ? & ? & ?).
  unfold process_chunk. repeat split; cbn [ra rb rc rd re]; apply add_bin32; assumption.
Qed.

Lemma fold_process_bin32 (Ws : list (list bits)) h :
  Forall (fun W => length W = 80%nat /\ Forall bin32 W) Ws -> regs_bin32 h ->
  regs_bin32 (fold_left process_chunk Ws h).
Proof.
  intros HWs. revert h. induction HWs as [| W Ws' [HL HW] _ IH]; intros h Hh; [exact Hh |].
  simpl. apply IH. apply process_chunk_bin32; assumption.
Qed.

(** *** Step 14: hexadecimal rendering *)

Definition is_hex (c : ascii) : bool :=
  let n := nat_of_ascii c in ((48 <=? n) && (n <=? 57) || (97 <=? n) && (n <=? 102))%nat.

Lemma pos_digits_hex f p acc :
  forallb is_hex acc = true -> forallb is_hex (pos_digits 16 f p acc) = true.
Proof.
  revert p acc. induction f as [| f IH]; intros p acc Hacc; [exact Hacc |].
  cbn [pos_digits].
  assert (Hc : is_hex (ascii_of_nat (if (p mod Z.pos 16 <? 10)%Z then 48 + Z.to_nat (p mod Z.pos 16)
                                     else 87 + Z.to_nat (p mod Z.pos 16))) = true).
  { pose proof (Z.mod_pos_bound p 16 ltac:(lia)).
    destruct (p mod Z.pos 16 <? 10)%Z eqn:E; unfold is_hex;
      rewrite nat_ascii_embedding by lia; apply orb_true_iff;
      [apply Z.ltb_lt in E; left | apply Z.ltb_ge in E; right];
      apply andb_true_iff; split; apply Nat.leb_le; lia. }
  destruct (p / Z.pos 16 =? 0)%Z; [| apply IH]; cbn [forallb]; rewrite Hc; exact Hacc.
Qed.

Lemma pos_digits_grows r f p acc :
  (length acc <= length (pos_digits r f p acc))%nat /\
  (f <> 0%nat -> S (length acc) <= length (pos_digits r f p acc))%nat.
Proof.
  revert p acc. induction f as [| f IH]; intros p acc; [simpl; lia |].
  cbn [pos_digits]. destruct (p / Z.pos r =? 0)%Z; [simpl; lia |].
  match goal with |- context [pos_digits r f ?q (?c :: acc)] =>
    destruct (IH q (c :: acc)) as [H _] end.
  cbn [length] in H. lia.
Qed.

Lemma toString16_bin32 z :
  (0 <= z < 2 ^ 32)%Z ->
  (1 <= length (toString 16 (Some z)) <= 8)%nat /\ forallb is_hex (toString 16 (Some z)) = true.
Proof.
  intros Hz. unfold toString. destruct (z =? 0)%Z eqn:E0; [split; [simpl; lia | reflexivity] |].
  apply Z.eqb_neq in E0. destruct (z <? 0)%Z eqn:En; [apply Z.ltb_lt in En; lia |].
  split; [split | apply pos_digits_hex; reflexivity].
  - destruct (pos_digits_grows 16 (Z.to_nat (Z.log2 z) + 1) z []) as [_ H].
    simpl in H. apply H. lia.
  - pose proof (pos_digits_length 16 (Z.to_nat (Z.log2 z) + 1) z [] 8 ltac:(lia) ltac:(simpl; lia)).
    simpl in H. lia.
Qed.

Lemma forallb_hex_zeros k : forallb is_hex (repeat "0" k) = true.
Proof. induction k; simpl; auto. Qed.

Lemma binToHex_bin32 h :
  bin32 h -> length (binToHex h 8) = 8%nat /\ forallb is_hex (binToHex h 8) = true.
Proof.
  intros Hh. pose proof (bin_value_bin32 h Hh) as Hv. unfold binToHex.
  rewrite parseInt2_bin by (apply Hh || apply bin32_nonempty, Hh).
  destruct (toString16_bin32 _ Hv) as [Hl Hx].
  set (s := toString 16 (Some (bin_value h))) in *.
  destruct (length s <? 8)%nat eqn:E.
  - apply Nat.ltb_lt in E. rewrite getStringXTime_zeros, length_app, repeat_length, forallb_app,
      forallb_hex_zeros, Hx. split; [lia | reflexivity].
  - apply Nat.ltb_ge in E. split; [lia | exact Hx].
Qed.

End Pipeline.

(** ** The claims *)
Module Claims.
Import Utils Bits Main Pipeline.

(** The digest the spec gives for "Hello World". *)
Definition spec_hello_world_digest : bits :=
  str_bits "0a4d55a8d778e5022fab701977c5d840bbc486d".

(** Decidable form of [js_string_ok], to check concrete inputs. *)
Definition js_string_okb (str : code_units) : bool :=
  (Z.of_nat (length str) <? 2 ^ 53)%Z && forallb (fun c => (0 <=? c) && (c <? 2 ^ 16))%Z str.

Lemma js_string_okb_spec str : js_string_okb str = true -> js_string_ok str.
Proof.
  unfold js_string_okb, js_string_ok. intros H. apply andb_true_iff in H as [H1 H2].
  split; [apply Z.ltb_lt, H1 |].
  apply Forall_forall. rewrite forallb_forall in H2. intros c Hc.
  specialize (H2 c Hc). apply andb_true_iff in H2 as [H3 H4].
  apply Z.leb_le in H3. apply Z.ltb_lt in H4. lia.
Qed.

Lemma bytes_okb str : forallb (fun c => (0 <=? c) && (c <? 256))%Z str = true ->
  Forall (fun c => 0 <= c < 256)%Z str.
Proof.
  intros H. apply Forall_forall. rewrite forallb_forall in H. intros c Hc.
  specialize (H c Hc). apply andb_true_iff in H as [H1 H2].
  apply Z.leb_le in H1. apply Z.ltb_lt in H2. lia.
Qed.

Lemma Forall_firstn_ {A} (P : A -> Prop) l k : Forall P l -> Forall P (firstn k l).
Proof.
  intros H. revert k. induction H as [| x l Hx _ IH]; intros [| k]; simpl; constructor; auto.
Qed.

Lemma bits_be_testbit_ext n X Y :
  (forall k, (0 <= k < Z.of_nat n)%Z -> Z.testbit X k = Z.testbit Y k) -> bits_be n X = bits_be n Y.
Proof.
  intros H. apply nth_ext with (d := "0") (d' := "0"); rewrite ?length_bits_be; auto.
  intros i Hi. rewrite !nth_bits_be by lia. rewrite H by lia. reflexivity.
Qed.

(** C1: [sha1("Hello World")] is [0a4d55a8d778e5022fab701977c5d840bbc486d0]:
    forty hexadecimal digits, ending in [0]. *)
Theorem sha1_hello_world :
  sha1 (js_str "Hello World") = Some (str_bits "0a4d55a8d778e5022fab701977c5d840bbc486d0").
Proof. vm_compute. reflexivity. Qed.

(** C1, counterexample: [sha1("Hello World")] is not the 39-digit string
    [0a4d55a8d778e5022fab701977c5d840bbc486d] the spec gives. *)
Lemma sha1_hello_world_not_spec_value :
  sha1 (js_str "Hello World") <> Some spec_hello_world_digest.
Proof. vm_compute. discriminate. Qed.

(** C2: in rounds 40 to 59 the round function, computed by the code as
    [(b and c) xor (b and d) xor (c and d)], is on 32-bit registers the
    bitwise [(b AND c) OR (b AND d) OR (c AND d)], and the round constant is
    [0x8F1BBCDC]. *)
Theorem round_40_59_majority (i : nat) (b c d : bits) :
  (40 <= i < 60)%nat -> bin32 b -> bin32 c -> bin32 d ->
  round_fk i b c d =
    (bits_be 32 (Z.lor (Z.lor (Z.land (bin_value b) (bin_value c))
                              (Z.land (bin_value b) (bin_value d)))
                       (Z.land (bin_value c) (bin_value d))),
     bits_be 32 0x8F1BBCDC).
Proof.
  intros Hi [Lb Bb] [Lc Bc] [Ld Bd]. unfold round_fk.
  replace (i <? 20)%nat with false by (symmetry; apply Nat.ltb_ge; lia).
  replace (i <? 40)%nat with false by (symmetry; apply Nat.ltb_ge; lia).
  replace (i <? 60)%nat with true by (symmetry; apply Nat.ltb_lt; lia).
  f_equal.
  rewrite (and_bits_be 32 b c), (and_bits_be 32 b d), (and_bits_be 32 c d) by assumption.
  rewrite (xor_bits_be 32 (bits_be 32 _) (bits_be 32 _))
    by (apply length_bits_be || apply is_bin_bits_be).
  rewrite (xor_bits_be 32 (bits_be 32 _) (bits_be 32 _))
    by (apply length_bits_be || apply is_bin_bits_be).
  rewrite !bin_value_bits_be.
  apply bits_be_testbit_ext. intros k Hk.
  rewrite !Z.lxor_spec, !Z.mod_pow2_bits_low by lia.
  rewrite !Z.lxor_spec, !Z.mod_pow2_bits_low by lia.
  rewrite !Z.land_spec, !Z.lor_spec, !Z.land_spec.
  destruct (Z.testbit (bin_value b) k), (Z.testbit (bin_value c) k), (Z.testbit (bin_value d) k);
    reflexivity.
Qed.

Lemma round_40_59_majority_witness :
  round_fk 45 h1_init h2_init h3_init =
    (bits_be 32 (Z.lor (Z.lor (Z.land (bin_value h1_init) (bin_value h2_init))
                              (Z.land (bin_value h1_init) (bin_value h3_init)))
                       (Z.land (bin_value h2_init) (bin_value h3_init))),
     bits_be 32 0x8F1BBCDC).
Proof.
  apply round_40_59_majority; [lia | split; reflexivity | split; reflexivity | split; reflexivity].
Defined.

(** C3: for every JS string, each block of the padded message is sixteen
    32-bit words, and its 80-word schedule has these sixteen words verbatim
    at indices 0 to 15 and, at every [t] from 16 to 79, the 32-bit value
    [rotate_left_1(W[t-3] xor W[t-8] xor W[t-14] xor W[t-16])]. *)
Theorem schedule_recurrence (str : code_units) :
  js_string_ok str ->
  exists p Ws, padded str = Some p /\ schedule str = Some Ws /\
    Forall block_ok (step10_split_32b_words (step9_split_512b_chunks p)) /\
    Forall2 schedule_ok (step10_split_32b_words (step9_split_512b_chunks p)) Ws.
Proof.
  intros Hjs. destruct (schedule_spec str Hjs) as (p & Ws & Hp & HWs & Hok & _).
  exists p, Ws. repeat split; auto.
  destruct (padded_length str p Hjs Hp) as (Hm & _ & Hb).
  apply blocks_of_padded; assumption.
Qed.

Lemma schedule_recurrence_witness :
  exists p Ws, padded (js_str "abc") = Some p /\ schedule (js_str "abc") = Some Ws /\
    Forall block_ok (step10_split_32b_words (step9_split_512b_chunks p)) /\
    Forall2 schedule_ok (step10_split_32b_words (step9_split_512b_chunks p)) Ws.
Proof. apply schedule_recurrence, js_string_okb_spec. vm_compute. reflexivity. Defined.

(** C4: for every JS string the digest is five groups of exactly eight
    hexadecimal digits, one per register [h0] to [h4], forty in all. *)
Theorem sha1_digest_length (str : code_units) :
  js_string_ok str ->
  exists h, sha1 str = Some (step14_finalize h) /\
    Forall (fun g => length g = 8%nat /\ forallb is_hex g = true)
      [binToHex (ra h) 8; binToHex (rb h) 8; binToHex (rc h) 8; binToHex (rd h) 8; binToHex (re h) 8] /\
    length (step14_finalize h) = 40%nat /\ forallb is_hex (step14_finalize h) = true.
Proof.
  intros Hjs. destruct (schedule_spec str Hjs) as (p & Ws & _ & HWs & _ & Hall).
  exists (fold_left process_chunk Ws h_init).
  split; [unfold sha1; rewrite HWs; reflexivity |].
  pose proof (fold_process_bin32 Ws h_init Hall h_init_bin32) as (Ha & Hb & Hc & Hd & He).
  destruct (binToHex_bin32 _ Ha), (binToHex_bin32 _ Hb), (binToHex_bin32 _ Hc),
    (binToHex_bin32 _ Hd), (binToHex_bin32 _ He).
  split; [repeat constructor; assumption |].
  unfold step14_finalize. rewrite !length_app, !forallb_app.
  split; [lia |]. repeat (apply andb_true_iff; split); assumption.
Qed.

Lemma sha1_digest_length_witness :
  exists h, sha1 (js_str "Hello World") = Some (step14_finalize h) /\
    Forall (fun g => length g = 8%nat /\ forallb is_hex g = true)
      [binToHex (ra h) 8; binToHex (rb h) 8; binToHex (rc h) 8; binToHex (rd h) 8; binToHex (re h) 8] /\
    length (step14_finalize h) = 40%nat /\ forallb is_hex (step14_finalize h) = true.
Proof. apply sha1_digest_length, js_string_okb_spec. vm_compute. reflexivity. Defined.

(** C5: [sha1("")] is [da39a3ee5e6b4b0d3255bfef95601890afd80709]. *)
Theorem sha1_empty :
  sha1 (js_str "") = Some (str_bits "da39a3ee5e6b4b0d3255bfef95601890afd80709").
Proof. vm_compute. reflexivity. Qed.

(** C6: for every JS string the padded message has a length that is a
    multiple of 512 and at least 512; the empty message pads to the single
    block ['1'], 447 zeros, and the 64-bit length 0. *)
Theorem padded_blocks (str : code_units) :
  js_string_ok str ->
  (exists p, padded str = Some p /\ (length p mod 512 = 0)%nat /\ (512 <= length p)%nat) /\
  padded [] = Some ("1" :: repeat "0" 447 ++ bits_be 64 0).
Proof.
  intros Hjs. split; [| vm_compute; reflexivity].
  destruct (padded_spec str (js_string_bit_length str Hjs)) as (k & Hp & _).
  eexists. split; [exact Hp |].
  destruct (padded_length str _ Hjs Hp) as (H1 & H2 & _). split; assumption.
Qed.

Lemma padded_blocks_witness :
  (exists p, padded (js_str "Hello World") = Some p /\ (length p mod 512 = 0)%nat /\
             (512 <= length p)%nat) /\
  padded [] = Some ("1" :: repeat "0" 447 ++ bits_be 64 0).
Proof. apply padded_blocks, js_string_okb_spec. vm_compute. reflexivity. Defined.

(** C7: when the message's bit-length is below [2^64], the last 64 bits of
    the padded message are that bit-length as a 64-bit big-endian number. *)
Theorem padded_length_field (str : code_units) :
  (Z.of_nat (bit_length str) < 2 ^ 64)%Z ->
  exists p, padded str = Some p /\ (64 <= length p)%nat /\
    skipn (length p - 64) p = bits_be 64 (Z.of_nat (bit_length str)).
Proof.
  intros HL. destruct (padded_spec str HL) as (k & Hp & _).
  eexists. split; [exact Hp |].
  rewrite !app_assoc. rewrite length_app, length_bits_be. split; [lia |].
  rewrite Nat.add_sub, skipn_app, skipn_all, Nat.sub_diag. reflexivity.
Qed.

Lemma padded_length_field_witness :
  exists p, padded (js_str "abc") = Some p /\ (64 <= length p)%nat /\
    skipn (length p - 64) p = bits_be 64 (Z.of_nat (bit_length (js_str "abc"))).
Proof. apply padded_length_field. vm_compute. reflexivity. Defined.

(** C8: [Utils.add(w1, w2, 32)] on 32-bit binary strings is the 32-bit
    big-endian rendering of [(value(w1) + value(w2)) mod 2^32]; so the round's
    [temp] is [rotate_left_5(a) + f + e + k + W[t]] modulo [2^32], and each
    update [H_i += x] of a block is [(H_i + x) mod 2^32]. *)
Theorem add_mod_2_32 :
  (forall w1 w2, bin32 w1 -> bin32 w2 ->
     add w1 w2 32 = bits_be 32 ((bin_value w1 + bin_value w2) mod 2 ^ 32)) /\
  (forall r i w, regs_bin32 r -> bin32 w ->
     round_tmp r i w =
       bits_be 32 ((bin_value (rotate (ra r) 5) + bin_value (fst (round_fk i (rb r) (rc r) (rd r)))
                    + bin_value (re r) + bin_value (snd (round_fk i (rb r) (rc r) (rd r)))
                    + bin_value w) mod 2 ^ 32)) /\
  (forall h (W : list bits), regs_bin32 h -> length W = 80%nat -> Forall bin32 W ->
     let r := rounds 80 0 W h in
     process_chunk h W =
       Regs (bits_be 32 ((bin_value (ra h) + bin_value (ra r)) mod 2 ^ 32))
            (bits_be 32 ((bin_value (rb h) + bin_value (rb r)) mod 2 ^ 32))
            (bits_be 32 ((bin_value (rc h) + bin_value (rc r)) mod 2 ^ 32))
            (bits_be 32 ((bin_value (rd h) + bin_value (rd r)) mod 2 ^ 32))
            (bits_be 32 ((bin_value (re h) + bin_value (re r)) mod 2 ^ 32))).
Proof.
  split; [| split].
  - apply add_bits_be32.
  - intros r i w (Ha & Hb & Hc & Hd & He) Hw. unfold round_tmp.
    destruct (round_fk_bin32 i (rb r) (rc r) (rd r) Hb Hc Hd) as [Hf Hk].
    destruct (round_fk i (rb r) (rc r) (rd r)) as [f k]. cbn [fst snd] in *.
    pose proof (rotate_bin32 (ra r) 5 Ha) as Hr.
    rewrite (add_bits_be32 _ _ Hr Hf).
    rewrite (add_bits_be32 _ _ (bin32_bits_be _) He).
    rewrite (add_bits_be32 _ _ (bin32_bits_be _) Hk).
    rewrite (add_bits_be32 _ _ (bin32_bits_be _) Hw).
    rewrite !bin_value_bits_be. change (2 ^ Z.of_nat 32)%Z with (2 ^ 32)%Z.
    rewrite !Z.mod_mod by lia. f_equal.
    rewrite <- !Z.add_assoc.
    repeat (rewrite <- ?Z.add_assoc; rewrite Z.add_mod_idemp_l by lia).
    rewrite <- !Z.add_assoc. reflexivity.
  - intros h W Hh HL HW r.
    pose proof (rounds_bin32 W 80 0 h HW ltac:(lia) Hh) as Hr. fold r in Hr.
    destruct Hh as (? & ? & ? & ? & ?). destruct Hr as (? & ? & ? & ? & ?).
    unfold process_chunk. fold r. rewrite !add_bits_be32 by assumption. reflexivity.
Qed.

Lemma add_mod_2_32_witness :
  add h1_init h2_init 32 = bits_be 32 ((bin_value h1_init + bin_value h2_init) mod 2 ^ 32).
Proof. apply add_mod_2_32; split; reflexivity. Defined.

(** C9: when every code unit is in [0, 255], steps 1 to 5 render each one
    as exactly one 8-bit big-endian group whose value is the code unit. *)
Theorem encode_one_byte_per_char (str : code_units) :
  Forall (fun c => 0 <= c < 256)%Z str ->
  exists groups, step5_combine_str str = concat groups /\
    Forall2 (fun g c => length g = 8%nat /\ is_bin g = true /\ bin_value g = c) groups str.
Proof.
  intros H. exists (map (bits_be 8) str). split.
  - unfold step5_combine_str. f_equal. apply map_ext_in. intros c Hc.
    rewrite Forall_forall in H. apply step4_byte, H, Hc.
  - induction H as [| c r Hc _ IH]; constructor; [| exact IH].
    rewrite length_bits_be, is_bin_bits_be, bin_value_bits_be.
    split; [reflexivity | split; [reflexivity |]]. apply Z.mod_small. simpl. lia.
Qed.

Lemma encode_one_byte_per_char_witness :
  exists groups, step5_combine_str (js_str "Hello World") = concat groups /\
    Forall2 (fun g c => length g = 8%nat /\ is_bin g = true /\ bin_value g = c) groups
      (js_str "Hello World").
Proof. apply encode_one_byte_per_char, bytes_okb. vm_compute. reflexivity. Defined.

(** C10: the [Utils] operations map 32-character binary strings to
    32-character binary strings; for every JS string every schedule word,
    every hash state [h0..h4] between blocks and every working state
    [a..e] after any number of rounds is made of such strings. *)
Theorem registers_stay_32_bit :
  (forall w1 w2, bin32 w1 -> bin32 w2 ->
     bin32 (xor w1 w2) /\ bin32 (or w1 w2) /\ bin32 (and w1 w2) /\ bin32 (not w1) /\
     (forall n, bin32 (rotate w1 n)) /\ bin32 (add w1 w2 32)) /\
  (forall str, js_string_ok str ->
     exists Ws, schedule str = Some Ws /\
       Forall (fun W => length W = 80%nat /\ Forall bin32 W) Ws /\
       (forall k, (k <= length Ws)%nat ->
          regs_bin32 (fold_left process_chunk (firstn k Ws) h_init)) /\
       (forall k n, (k < length Ws)%nat -> (n <= 80)%nat ->
          regs_bin32 (rounds n 0 (nth k Ws []) (fold_left process_chunk (firstn k Ws) h_init)))).
Proof.
  split.
  - intros w1 w2 H1 H2. repeat split;
      try apply xor_bin32; try apply or_bin32; try apply and_bin32; try apply not_bin32;
      try apply rotate_bin32; try apply add_bin32; try assumption;
      try apply H1; try apply H2.
  - intros str Hjs. destruct (schedule_spec str Hjs) as (p & Ws & _ & HWs & _ & Hall).
    exists Ws. split; [exact HWs | split; [exact Hall |]].
    assert (Hk : forall k, regs_bin32 (fold_left process_chunk (firstn k Ws) h_init)).
    { intros k. apply fold_process_bin32; [apply Forall_firstn_, Hall | apply h_init_bin32]. }
    split; [intros k _; apply Hk |].
    intros k n Hkl Hn. rewrite Forall_forall in Hall.
    destruct (Hall (nth k Ws []) (nth_In _ _ Hkl)) as [HL HW].
    apply rounds_bin32; [exact HW | lia | apply Hk].
Qed.

Lemma registers_stay_32_bit_witness :
  bin32 (xor h0_init h1_init) /\ bin32 (or h0_init h1_init) /\ bin32 (and h0_init h1_init) /\
  bin32 (not h0_init) /\ (forall n, bin32 (rotate h0_init n)) /\ bin32 (add h0_init h1_init 32).
Proof. apply registers_stay_32_bit; split; reflexivity. Defined.

End Claims.
